(** * core-js-101, [src/05-objects-tasks.js]: the CSS selector builder

    A shallow embedding of [cssSelectorBuilder] and the properties of its
    specification.

    JavaScript objects live in a store and are handled through references,
    so that the object spread [{ ...this }] really allocates a second
    object and the assignments that follow it really write to that object:
    whether the receiver is left alone is then a theorem, not a convention
    of the model. *)

From stdpp Require Import gmap strings list fin_maps.

(** ** JavaScript values, objects and the store *)

(** The only values the builder stores in a property are strings; reading
    a property that an object does not have gives [undefined], here
    [None]. *)
Abbreviation jsval := (option string).

(** An object is the finite map of its own enumerable string-valued
    properties. The function-valued properties of the builder (its
    methods) are copied by every spread and never assigned, so calls are
    resolved statically and the methods are not stored. *)
Abbreviation object := (gmap string string).

Abbreviation ref := nat.
Abbreviation heap := (list (gmap string string)).

(** [ToBoolean]: [undefined] and the empty string are falsy, every other
    string is truthy. *)
Definition truthy (v : jsval) : bool :=
  match v with
  | Some (String _ _) => true
  | _ => false
  end.

(** [ToString], as used by [+=] and by template literals. *)
Definition to_string (v : jsval) : string :=
  match v with
  | Some s => s
  | None => "undefined"
  end.

(** [new Error(message)], and the [TypeError] of a property access through
    a reference that designates no object. *)
Inductive error : Type :=
| Error (message : jsval)
| TypeError.

Inductive completion (A : Type) : Type :=
| Normal (a : A)
| Throw (e : error).
Arguments Normal {A} a.
Arguments Throw {A} e.

(** Computations read and write the store and may throw. *)
Definition M (A : Type) : Type := heap → completion A * heap.

Definition ret {A} (a : A) : M A := λ h, (Normal a, h).

Definition throw {A} (e : error) : M A := λ h, (Throw e, h).

Definition bind {A B} (m : M A) (k : A → M B) : M B :=
  λ h, match m h with
       | (Normal a, h') => k a h'
       | (Throw e, h') => (Throw e, h')
       end.

Notation "x <- m ;; k" := (bind m (λ x, k))
  (at level 100, m at next level, right associativity).
Notation "m ;; k" := (bind m (λ _, k))
  (at level 100, right associativity).

(** [r.k] *)
Definition getProp (r : ref) (k : string) : M jsval :=
  λ h, match h !! r with
       | Some o => (Normal (o !! k), h)
       | None => (Throw TypeError, h)
       end.

(** [r.k = s] *)
Definition setProp (r : ref) (k : string) (s : string) : M unit :=
  λ h, match h !! r with
       | Some o => (Normal tt, <[r := <[k := s]> o]> h)
       | None => (Throw TypeError, h)
       end.

(** [{ ...r }]: a new object with the own enumerable properties of [r]. *)
Definition spread (r : ref) : M ref :=
  λ h, match h !! r with
       | Some o => (Normal (length h), h ++ [o])
       | None => (Throw TypeError, h)
       end.

(** ** The builder *)

Module cssSelectorBuilder.

Definition countErrText : string :=
  "Element, id and pseudo-element should not occur more then one time inside the selector".
Definition orderErrText : string :=
  "Selector parts should be arranged in the following order: element, id, class, attribute, pseudo-class, pseudo-element".

(** The object literal itself: of its data properties only the two
    message texts exist at the start. *)
Definition literal : gmap string string :=
  <["countErrText" := countErrText]> (<["orderErrText" := orderErrText]> ∅).

Definition element (this : ref) (value : string) : M ref :=
  elVal <- getProp this "elVal";;
  if truthy elVal then
    (msg <- getProp this "countErrText";; throw (Error msg))
  else
  idVal <- getProp this "idVal";;
  if truthy idVal then
    (msg <- getProp this "orderErrText";; throw (Error msg))
  else
  obj <- spread this;;
  cur <- getProp obj "elVal";;
  (if negb (truthy cur) then setProp obj "elVal" value
   else setProp obj "elVal" (to_string cur +:+ value));;
  ret obj.

Definition id (this : ref) (value : string) : M ref :=
  idVal <- getProp this "idVal";;
  if truthy idVal then
    (msg <- getProp this "countErrText";; throw (Error msg))
  else
  classVal <- getProp this "classVal";;
  pseudoEl <- getProp this "pseudoEl";;
  if truthy classVal || truthy pseudoEl then
    (msg <- getProp this "orderErrText";; throw (Error msg))
  else
  obj <- spread this;;
  cur <- getProp obj "idVal";;
  (if negb (truthy cur) then setProp obj "idVal" ("#" +:+ value)
   else setProp obj "idVal" (to_string cur +:+ "#" +:+ value));;
  ret obj.

Definition class (this : ref) (value : string) : M ref :=
  attrVal <- getProp this "attrVal";;
  if truthy attrVal then
    (msg <- getProp this "orderErrText";; throw (Error msg))
  else
  obj <- spread this;;
  cur <- getProp obj "classVal";;
  (if negb (truthy cur) then setProp obj "classVal" ("." +:+ value)
   else setProp obj "classVal" (to_string cur +:+ "." +:+ value));;
  ret obj.

Definition attr (this : ref) (value : string) : M ref :=
  pseudoCl <- getProp this "pseudoCl";;
  if truthy pseudoCl then
    (msg <- getProp this "orderErrText";; throw (Error msg))
  else
  obj <- spread this;;
  cur <- getProp obj "attrVal";;
  (if negb (truthy cur) then setProp obj "attrVal" ("[" +:+ value +:+ "]")
   else setProp obj "attrVal" (to_string cur +:+ "[" +:+ value +:+ "]"));;
  ret obj.

Definition pseudoClass (this : ref) (value : string) : M ref :=
  pseudoEl <- getProp this "pseudoEl";;
  if truthy pseudoEl then
    (msg <- getProp this "orderErrText";; throw (Error msg))
  else
  obj <- spread this;;
  cur <- getProp obj "pseudoCl";;
  (if negb (truthy cur) then setProp obj "pseudoCl" (":" +:+ value)
   else setProp obj "pseudoCl" (to_string cur +:+ ":" +:+ value));;
  ret obj.

Definition pseudoElement (this : ref) (value : string) : M ref :=
  pseudoEl <- getProp this "pseudoEl";;
  if truthy pseudoEl then
    (msg <- getProp this "countErrText";; throw (Error msg))
  else
  obj <- spread this;;
  cur <- getProp obj "pseudoEl";;
  (if negb (truthy cur) then setProp obj "pseudoEl" ("::" +:+ value)
   else setProp obj "pseudoEl" (to_string cur +:+ "::" +:+ value));;
  ret obj.

Definition stringify (this : ref) : M string :=
  value <- getProp this "value";;
  if truthy value then ret (to_string value) else
  let res := "" in
  elVal <- getProp this "elVal";;
  let res := if truthy elVal then res +:+ to_string elVal else res in
  idVal <- getProp this "idVal";;
  let res := if truthy idVal then res +:+ to_string idVal else res in
  classVal <- getProp this "classVal";;
  let res := if truthy classVal then res +:+ to_string classVal else res in
  attrVal <- getProp this "attrVal";;
  let res := if truthy attrVal then res +:+ to_string attrVal else res in
  pseudoCl <- getProp this "pseudoCl";;
  let res := if truthy pseudoCl then res +:+ to_string pseudoCl else res in
  pseudoEl <- getProp this "pseudoEl";;
  let res := if truthy pseudoEl then res +:+ to_string pseudoEl else res in
  ret res.

(** [combine] copies the receiver first and only then renders its two
    arguments, as the source does. *)
Definition combine (this : ref) (selector1 : ref) (combinator : string)
    (selector2 : ref) : M ref :=
  obj <- spread this;;
  s1 <- stringify selector1;;
  s2 <- stringify selector2;;
  let value := s1 +:+ " " +:+ combinator +:+ " " +:+ s2 in
  cur <- getProp obj "value";;
  (if negb (truthy cur) then setProp obj "value" value
   else setProp obj "value" (to_string cur +:+ value));;
  ret obj.

End cssSelectorBuilder.

Import cssSelectorBuilder.

(** ** Fluent chains and reachable stores *)

(** One call of the fluent interface, without its receiver. *)
Inductive write : Type :=
| Element (value : string)
| Id (value : string)
| Class (value : string)
| Attr (value : string)
| PseudoClass (value : string)
| PseudoElement (value : string)
| Combine (selector1 : ref) (combinator : string) (selector2 : ref).

Definition call (this : ref) (w : write) : M ref :=
  match w with
  | Element value => element this value
  | Id value => id this value
  | Class value => class this value
  | Attr value => attr this value
  | PseudoClass value => pseudoClass this value
  | PseudoElement value => pseudoElement this value
  | Combine selector1 combinator selector2 =>
      combine this selector1 combinator selector2
  end.

(** [this.w1(..).w2(..)...]: each call is made on the result of the one
    before; the first exception ends the chain. *)
Fixpoint chain (this : ref) (ws : list write) : M ref :=
  match ws with
  | [] => ret this
  | w :: ws' => r <- call this w;; chain r ws'
  end.

(** The stores a program can be in that starts with the object literal
    alone and only calls builder methods, on any objects it has. *)
Inductive reachable : heap → Prop :=
| reachable_literal : reachable [literal]
| reachable_call h this w :
    reachable h → reachable (snd (call this w h)).

(** ** Vocabulary of the specification *)

(** The two error kinds are told apart by the message of the [Error]. *)
Definition CardinalityError : error := Error (Some countErrText).
Definition OrderError : error := Error (Some orderErrText).

(** A builder is an object that carries the two message texts of the
    literal, as every copy of it does. *)
Definition is_builder (o : gmap string string) : Prop :=
  o !! "countErrText" = Some countErrText ∧
  o !! "orderErrText" = Some orderErrText.

#[global] Instance is_builder_dec o : Decision (is_builder o).
Proof. unfold is_builder. apply _. Defined.

(** The text a category contributes: its fragment when there is one. *)
Definition present (v : jsval) : string :=
  match v with
  | Some s => s
  | None => ""
  end.

(** What the assignment [obj.k = s] or [obj.k += s] of a method leaves in
    property [k]. *)
Definition accumulated (o : gmap string string) (k s : string) : string :=
  if truthy (o !! k) then to_string (o !! k) +:+ s else s.

(** What [stringify] reads off an object. *)
Definition rendered (o : gmap string string) : string :=
  if truthy (o !! "value") then to_string (o !! "value")
  else present (o !! "elVal") +:+ present (o !! "idVal") +:+
       present (o !! "classVal") +:+ present (o !! "attrVal") +:+
       present (o !! "pseudoCl") +:+ present (o !! "pseudoEl").

(** The property a call writes, and the text it contributes to it. For
    [combine] the text is made of what its two arguments render to in the
    store at hand. *)
Definition property (w : write) : string :=
  match w with
  | Element _ => "elVal"
  | Id _ => "idVal"
  | Class _ => "classVal"
  | Attr _ => "attrVal"
  | PseudoClass _ => "pseudoCl"
  | PseudoElement _ => "pseudoEl"
  | Combine _ _ _ => "value"
  end.

Definition text (h : heap) (w : write) : string :=
  match w with
  | Element value => value
  | Id value => "#" +:+ value
  | Class value => "." +:+ value
  | Attr value => "[" +:+ value +:+ "]"
  | PseudoClass value => ":" +:+ value
  | PseudoElement value => "::" +:+ value
  | Combine selector1 combinator selector2 =>
      from_option rendered "" (h !! selector1) +:+ " " +:+ combinator +:+
      " " +:+ from_option rendered "" (h !! selector2)
  end.

(** The fragment of a fragment-adding call: its text, which no store
    enters. *)
Definition fragment (w : write) : string := text [] w.

(** The fragments that the calls of a chain write to property [k], in the
    order of the calls, one after the other. *)
Fixpoint joined (k : string) (ws : list write) : string :=
  match ws with
  | [] => ""
  | w :: ws' =>
      if decide (property w = k) then fragment w +:+ joined k ws'
      else joined k ws'
  end.

(** What holds of every object of a reachable store: it is a builder, and
    its [value], when it has one, is not the empty string. *)
Definition sound (o : gmap string string) : Prop :=
  is_builder o ∧ o !! "value" ≠ Some "".

#[global] Instance sound_dec o : Decision (sound o).
Proof. unfold sound. apply _. Defined.

(** *** Chains in category order *)

(** The place of a call's category in [element, id, class, attribute,
    pseudo-class, pseudo-element]; [combine] comes after them all. *)
Definition rank (w : write) : nat :=
  match w with
  | Element _ => 0
  | Id _ => 1
  | Class _ => 2
  | Attr _ => 3
  | PseudoClass _ => 4
  | PseudoElement _ => 5
  | Combine _ _ _ => 6
  end.

(** The categories that take one fragment only. *)
Definition single (w : write) : bool :=
  match w with
  | Element _ | Id _ | PseudoElement _ => true
  | _ => false
  end.

Definition fragment_call (w : write) : bool :=
  match w with
  | Combine _ _ _ => false
  | _ => true
  end.

(** The fragment properties of an object, each with the rank of its
    category. *)
Definition categories : list (nat * string) :=
  [(0, "elVal"); (1, "idVal"); (2, "classVal"); (3, "attrVal");
   (4, "pseudoCl"); (5, "pseudoEl")].

(** No category of rank [lo] or more has a truthy fragment in [o]. *)
Definition clear_from (lo : nat) (o : gmap string string) : bool :=
  forallb (λ c, (c.1 <? lo) || negb (truthy (o !! c.2))) categories.

(** A chain of fragment calls in category order. [lo] is one more than
    the rank of the call before (0 at the start): a call of a
    single-valued category must come strictly later in the order than the
    call before it, a call of another category may also repeat it. *)
Fixpoint in_order (lo : nat) (ws : list write) : bool :=
  match ws with
  | [] => true
  | w :: ws' =>
      fragment_call w &&
      (lo <=? (if single w then rank w else S (rank w))) &&
      in_order (S (rank w)) ws'
  end.

(** The fragments of a chain in the order of its calls. *)
Fixpoint written (ws : list write) : string :=
  match ws with
  | [] => ""
  | w :: ws' => fragment w +:+ written ws'
  end.

(** Builders used as examples: [id('main').class('container')],
    [element('div')] and [element('p')]. *)
Definition main_container : gmap string string :=
  <["classVal" := ".container"]> (<["idVal" := "#main"]> literal).
Definition el_div : gmap string string := <["elVal" := "div"]> literal.
Definition el_p : gmap string string := <["elVal" := "p"]> literal.

(** The double quote character, for selectors that contain one. *)
Definition dquote : string := String (Ascii.ascii_of_nat 34) EmptyString.

(** ** Strings *)

Lemma app_nil_r (s : string) : s +:+ "" = s.
Proof.
  induction s as [|a s IH]; [done|].
  change (String a (s +:+ "") = String a s). by rewrite IH.
Qed.

Lemma app_assoc (s1 s2 s3 : string) : (s1 +:+ s2) +:+ s3 = s1 +:+ s2 +:+ s3.
Proof.
  induction s1 as [|a s1 IH]; [done|].
  change (String a ((s1 +:+ s2) +:+ s3) = String a (s1 +:+ s2 +:+ s3)).
  by rewrite IH.
Qed.

Lemma truthy_present (v : jsval) :
  (if truthy v then to_string v else "") = present v.
Proof. by destruct v as [[|a s]|]. Qed.

Lemma res_plus (res : string) (v : jsval) :
  (if truthy v then res +:+ to_string v else res) = res +:+ present v.
Proof. destruct v as [[|a s]|]; simpl; by rewrite ?app_nil_r. Qed.

Lemma texts_differ : countErrText ≠ orderErrText.
Proof. discriminate. Qed.

(** ** One step of the store monad *)

Lemma bind_Normal {A B} (m : M A) (k : A → M B) h a h' :
  m h = (Normal a, h') → bind m k h = k a h'.
Proof. intros E. unfold bind. by rewrite E. Qed.

Lemma bind_Throw {A B} (m : M A) (k : A → M B) h e h' :
  m h = (Throw e, h') → bind m k h = (Throw e, h').
Proof. intros E. unfold bind. by rewrite E. Qed.

Lemma getProp_Some (h : heap) r o k :
  h !! r = Some o → getProp r k h = (Normal (o !! k), h).
Proof. intros E. unfold getProp. by rewrite E. Qed.

Lemma getProp_None (h : heap) r k :
  h !! r = None → getProp r k h = (Throw TypeError, h).
Proof. intros E. unfold getProp. by rewrite E. Qed.

Lemma spread_Some (h : heap) r o :
  h !! r = Some o → spread r h = (Normal (length h), h ++ [o]).
Proof. intros E. unfold spread. by rewrite E. Qed.

Lemma lookup_new (h : heap) o : (h ++ [o]) !! length h = Some o.
Proof. by rewrite lookup_app_r, Nat.sub_diag. Qed.

Lemma lookup_old (h : heap) o r o' :
  h !! r = Some o' → (h ++ [o]) !! r = Some o'.
Proof. intros E. rewrite lookup_app_l; [done|]. by eapply lookup_lt_Some. Qed.

Lemma setProp_new (h : heap) o k s :
  setProp (length h) k s (h ++ [o]) = (Normal tt, h ++ [<[k := s]> o]).
Proof.
  unfold setProp. rewrite lookup_new.
  by rewrite insert_app_r_alt, Nat.sub_diag.
Qed.

(** The tail every fragment method and [combine] ends with: copy the
    receiver, then set or extend one property of the copy. *)
Lemma copy_and_write (h : heap) this o k s :
  h !! this = Some o →
  (obj <- spread this;;
   cur <- getProp obj k;;
   (if negb (truthy cur) then setProp obj k s
    else setProp obj k (to_string cur +:+ s));;
   ret obj) h
  = (Normal (length h), h ++ [<[k := accumulated o k s]> o]).
Proof.
  intros E.
  rewrite (bind_Normal _ _ _ _ _ (spread_Some _ _ _ E)).
  rewrite (bind_Normal _ _ _ _ _ (getProp_Some _ _ _ k (lookup_new h o))).
  unfold accumulated.
  destruct (truthy (o !! k)); simpl;
    by rewrite (bind_Normal _ _ _ _ _ (setProp_new _ _ _ _)).
Qed.

(** ** The methods in closed form

    On a receiver that exists, each method either throws and leaves the
    store as it was, or appends one object to the store: the receiver with
    one property set or extended. *)

Ltac read_prop E :=
  rewrite (bind_Normal _ _ _ _ _ (getProp_Some _ _ _ _ E)).

Ltac refuse E :=
  read_prop E; unfold throw; reflexivity.

Section receiver.
Context (h : heap) (this : ref) (o : gmap string string).
Hypothesis E : h !! this = Some o.

Lemma element_eq value :
  element this value h =
    if truthy (o !! "elVal") then (Throw (Error (o !! "countErrText")), h)
    else if truthy (o !! "idVal") then (Throw (Error (o !! "orderErrText")), h)
    else (Normal (length h),
          h ++ [<["elVal" := accumulated o "elVal" value]> o]).
Proof.
  unfold element. read_prop E.
  destruct (truthy (o !! "elVal")); [refuse E|]. read_prop E.
  destruct (truthy (o !! "idVal")); [refuse E|].
  by apply copy_and_write.
Qed.

Lemma id_eq value :
  id this value h =
    if truthy (o !! "idVal") then (Throw (Error (o !! "countErrText")), h)
    else if truthy (o !! "classVal") || truthy (o !! "pseudoEl")
    then (Throw (Error (o !! "orderErrText")), h)
    else (Normal (length h),
          h ++ [<["idVal" := accumulated o "idVal" ("#" +:+ value)]> o]).
Proof.
  unfold id. read_prop E.
  destruct (truthy (o !! "idVal")); [refuse E|]. do 2 read_prop E.
  destruct (truthy (o !! "classVal") || truthy (o !! "pseudoEl"));
    [refuse E|].
  by apply copy_and_write.
Qed.

Lemma class_eq value :
  class this value h =
    if truthy (o !! "attrVal") then (Throw (Error (o !! "orderErrText")), h)
    else (Normal (length h),
          h ++ [<["classVal" := accumulated o "classVal" ("." +:+ value)]> o]).
Proof.
  unfold class. read_prop E.
  destruct (truthy (o !! "attrVal")); [refuse E|].
  by apply copy_and_write.
Qed.

Lemma attr_eq value :
  attr this value h =
    if truthy (o !! "pseudoCl") then (Throw (Error (o !! "orderErrText")), h)
    else (Normal (length h),
          h ++ [<["attrVal" :=
                   accumulated o "attrVal" ("[" +:+ value +:+ "]")]> o]).
Proof.
  unfold attr. read_prop E.
  destruct (truthy (o !! "pseudoCl")); [refuse E|].
  by apply copy_and_write.
Qed.

Lemma pseudoClass_eq value :
  pseudoClass this value h =
    if truthy (o !! "pseudoEl") then (Throw (Error (o !! "orderErrText")), h)
    else (Normal (length h),
          h ++ [<["pseudoCl" := accumulated o "pseudoCl" (":" +:+ value)]> o]).
Proof.
  unfold pseudoClass. read_prop E.
  destruct (truthy (o !! "pseudoEl")); [refuse E|].
  by apply copy_and_write.
Qed.

Lemma pseudoElement_eq value :
  pseudoElement this value h =
    if truthy (o !! "pseudoEl") then (Throw (Error (o !! "countErrText")), h)
    else (Normal (length h),
          h ++ [<["pseudoEl" := accumulated o "pseudoEl" ("::" +:+ value)]> o]).
Proof.
  unfold pseudoElement. read_prop E.
  destruct (truthy (o !! "pseudoEl")); [refuse E|].
  by apply copy_and_write.
Qed.

Lemma stringify_eq : stringify this h = (Normal (rendered o), h).
Proof.
  unfold stringify, rendered. read_prop E.
  destruct (truthy (o !! "value")); [done|].
  do 6 read_prop E. unfold ret.
  by rewrite !res_plus, !app_assoc.
Qed.

End receiver.

Lemma stringify_dangling (h : heap) this :
  h !! this = None → stringify this h = (Throw TypeError, h).
Proof.
  intros E. unfold stringify.
  by rewrite (bind_Throw _ _ _ _ _ (getProp_None _ _ _ E)).
Qed.

Lemma combine_eq (h : heap) this o selector1 o1 combinator selector2 o2 :
  h !! this = Some o →
  (h ++ [o]) !! selector1 = Some o1 →
  (h ++ [o]) !! selector2 = Some o2 →
  combine this selector1 combinator selector2 h =
    (Normal (length h),
     h ++ [<["value" :=
              accumulated o "value"
                (rendered o1 +:+ " " +:+ combinator +:+ " " +:+ rendered o2)]>
            o]).
Proof.
  intros E E1 E2. unfold combine.
  rewrite (bind_Normal _ _ _ _ _ (spread_Some _ _ _ E)).
  rewrite (bind_Normal _ _ _ _ _ (stringify_eq _ _ _ E1)).
  rewrite (bind_Normal _ _ _ _ _ (stringify_eq _ _ _ E2)).
  rewrite (bind_Normal _ _ _ _ _ (getProp_Some _ _ _ "value" (lookup_new h o))).
  unfold accumulated.
  destruct (truthy (o !! "value")); simpl;
    by rewrite (bind_Normal _ _ _ _ _ (setProp_new _ _ _ _)).
Qed.

Lemma combine_dangling (h : heap) this selector1 combinator selector2 :
  h !! this = None →
  combine this selector1 combinator selector2 h = (Throw TypeError, h).
Proof.
  intros E. unfold combine, bind, spread. by rewrite E.
Qed.

Lemma combine_dangling_arg (h : heap) this o selector1 combinator selector2 :
  h !! this = Some o →
  (h ++ [o]) !! selector1 = None ∨ (h ++ [o]) !! selector2 = None →
  combine this selector1 combinator selector2 h = (Throw TypeError, h ++ [o]).
Proof.
  intros E D. unfold combine.
  rewrite (bind_Normal _ _ _ _ _ (spread_Some _ _ _ E)).
  destruct ((h ++ [o]) !! selector1) as [o1|] eqn:E1.
  - rewrite (bind_Normal _ _ _ _ _ (stringify_eq _ _ _ E1)).
    destruct D as [D|D]; [done|].
    by rewrite (bind_Throw _ _ _ _ _ (stringify_dangling _ _ D)).
  - by rewrite (bind_Throw _ _ _ _ _ (stringify_dangling _ _ E1)).
Qed.

Lemma call_dangling (h : heap) this w :
  h !! this = None → call this w h = (Throw TypeError, h).
Proof.
  intros E.
  destruct w; simpl; [..|by apply combine_dangling];
    unfold element, id, class, attr, pseudoClass, pseudoElement;
    by rewrite (bind_Throw _ _ _ _ _ (getProp_None _ _ _ E)).
Qed.

(** Every call, whatever it is given: an exception leaves the store as it
    was, or with a copy of the receiver added to it ([combine], given a
    reference to nothing); a result is the one object added to the store,
    the receiver with the call's text set or appended in the call's
    property. *)
Lemma call_outcome (h : heap) this w c h' :
  call this w h = (c, h') →
  match c with
  | Normal r =>
      ∃ o, h !! this = Some o ∧ r = length h ∧
        h' = h ++ [<[property w :=
                      accumulated o (property w) (text (h ++ [o]) w)]> o]
  | Throw e => h' = h ∨ ∃ o, h !! this = Some o ∧ h' = h ++ [o]
  end.
Proof.
  destruct (h !! this) as [o|] eqn:E.
  2:{ rewrite (call_dangling _ _ _ E). intros [= <- <-]. by left. }
  destruct w as [v|v|v|v|v|v|s1 t s2]; simpl.
  - rewrite (element_eq _ _ _ E).
    repeat case_match; intros [= <- <-]; eauto.
  - rewrite (id_eq _ _ _ E).
    repeat case_match; intros [= <- <-]; eauto.
  - rewrite (class_eq _ _ _ E).
    repeat case_match; intros [= <- <-]; eauto.
  - rewrite (attr_eq _ _ _ E).
    repeat case_match; intros [= <- <-]; eauto.
  - rewrite (pseudoClass_eq _ _ _ E).
    repeat case_match; intros [= <- <-]; eauto.
  - rewrite (pseudoElement_eq _ _ _ E).
    repeat case_match; intros [= <- <-]; eauto.
  - destruct ((h ++ [o]) !! s1) as [o1|] eqn:E1.
    2:{ rewrite (combine_dangling_arg _ _ _ _ _ _ E); [|by left].
        intros [= <- <-]. right. eauto. }
    destruct ((h ++ [o]) !! s2) as [o2|] eqn:E2.
    2:{ rewrite (combine_dangling_arg _ _ _ _ _ _ E); [|by right].
        intros [= <- <-]. right. eauto. }
    rewrite (combine_eq _ _ _ _ _ _ _ _ E E1 E2). intros [= <- <-].
    exists o. by rewrite E1, E2.
Qed.

(** ** The store only grows *)

Lemma call_frame (h : heap) this w c h' :
  call this w h = (c, h') →
  ∀ r o, h !! r = Some o → h' !! r = Some o.
Proof.
  intros C r o' E. apply call_outcome in C.
  destruct c as [r'|e].
  - destruct C as (o & _ & _ & ->). by apply lookup_old.
  - destruct C as [->|(o & _ & ->)]; [done|]. by apply lookup_old.
Qed.

Lemma chain_frame ws : ∀ (h : heap) this c h',
  chain this ws h = (c, h') →
  ∀ r o, h !! r = Some o → h' !! r = Some o.
Proof.
  induction ws as [|w ws IH]; intros h this c h' C r o E.
  - by injection C as <- <-.
  - simpl in C. unfold bind in C.
    destruct (call this w h) as [[r1|e] h1] eqn:C1.
    + eapply IH; [exact C|]. by eapply call_frame.
    + injection C as <- <-. by eapply call_frame.
Qed.

(** ** Truthy properties stay truthy *)

Lemma truthy_app_l (s1 s2 : string) :
  truthy (Some s1) = true → truthy (Some (s1 +:+ s2)) = true.
Proof. by destruct s1. Qed.

Lemma truthy_app_r (s1 s2 : string) :
  truthy (Some s2) = true → truthy (Some (s1 +:+ s2)) = true.
Proof. destruct s1; [done|]. by destruct s2. Qed.

Lemma truthy_accumulated (o : gmap string string) k s k' :
  truthy (o !! k') = true →
  truthy (<[k := accumulated o k s]> o !! k') = true.
Proof.
  intros T. destruct (decide (k = k')) as [->|N].
  - rewrite lookup_insert_eq. unfold accumulated. rewrite T.
    apply truthy_app_l. by destruct (o !! k').
  - by rewrite lookup_insert_ne.
Qed.

Lemma truthy_text (s : string) :
  truthy (Some s) = true → ∀ (o : gmap string string) k,
  truthy (<[k := accumulated o k s]> o !! k) = true.
Proof.
  intros T o k. rewrite lookup_insert_eq. unfold accumulated.
  destruct (truthy (o !! k)); [|done]. by apply truthy_app_r.
Qed.

Lemma call_truthy (h : heap) this w r h' o k :
  call this w h = (Normal r, h') → h !! this = Some o →
  truthy (o !! k) = true →
  ∃ o', h' !! r = Some o' ∧ truthy (o' !! k) = true.
Proof.
  intros C E T. apply call_outcome in C as (o1 & E1 & -> & ->).
  rewrite E in E1. injection E1 as <-.
  eexists. split; [apply lookup_new|]. by apply truthy_accumulated.
Qed.

Lemma chain_truthy ws : ∀ (h : heap) this r h' o k,
  chain this ws h = (Normal r, h') → h !! this = Some o →
  truthy (o !! k) = true →
  ∃ o', h' !! r = Some o' ∧ truthy (o' !! k) = true.
Proof.
  induction ws as [|w ws IH]; intros h this r h' o k C E T.
  - injection C as <- <-. eauto.
  - simpl in C. unfold bind in C.
    destruct (call this w h) as [[r1|e] h1] eqn:C1; [|done].
    destruct (call_truthy _ _ _ _ _ _ _ C1 E T) as (o1 & E1 & T1).
    by eapply IH.
Qed.

(** ** Reachable stores hold sound builders only *)

Lemma property_not_text (w : write) :
  property w ≠ "countErrText" ∧ property w ≠ "orderErrText".
Proof. by destruct w. Qed.

Lemma sound_literal : sound literal.
Proof. by repeat split. Qed.

Lemma sound_write (h : heap) (o : gmap string string) w :
  sound o →
  sound (<[property w := accumulated o (property w) (text h w)]> o).
Proof.
  intros [[Hc Ho] Hv]. destruct (property_not_text w) as [Nc No].
  repeat split.
  - by rewrite lookup_insert_ne.
  - by rewrite lookup_insert_ne.
  - destruct (decide (property w = "value")) as [P|P].
    + rewrite P, lookup_insert_eq. intros [= Q].
      destruct w; try done. simpl in Q. unfold accumulated in Q.
      assert (truthy (Some "") = true) as F; [|done].
      rewrite <- Q. destruct (truthy (o !! "value")).
      * by do 2 apply truthy_app_r.
      * by apply truthy_app_r.
    + by rewrite lookup_insert_ne.
Qed.

Lemma reachable_sound (h : heap) : reachable h → Forall sound h.
Proof.
  induction 1 as [|h this w R IH].
  - constructor; [apply sound_literal|constructor].
  - destruct (call this w h) as [c h'] eqn:C. simpl.
    apply call_outcome in C. destruct c as [r|e].
    + destruct C as (o & E & _ & ->).
      apply Forall_app. split; [done|]. constructor; [|constructor].
      apply sound_write. by eapply Forall_lookup_1.
    + destruct C as [->|(o & E & ->)]; [done|].
      apply Forall_app. split; [done|]. constructor; [|constructor].
      by eapply Forall_lookup_1.
Qed.

(** ** What a chain of fragment calls accumulates *)

Lemma text_fragment (h : heap) w :
  property w ≠ "value" → text h w = fragment w.
Proof. by destruct w. Qed.

Lemma present_accumulated (o : gmap string string) k s :
  accumulated o k s = present (o !! k) +:+ s.
Proof. unfold accumulated. by destruct (o !! k) as [[|a s']|]. Qed.

Lemma joined_other k ws :
  Forall (λ w, property w ≠ k) ws → joined k ws = "".
Proof.
  induction 1 as [|w ws N _ IH]; [done|].
  simpl. by destruct (decide (property w = k)).
Qed.

(** Each property of the last builder of a chain holds what the first one
    had there, followed by the fragments the chain wrote to it. *)
Lemma chain_accumulates ws : ∀ (h : heap) this o r h',
  Forall (λ w, property w ≠ "value") ws →
  chain this ws h = (Normal r, h') → h !! this = Some o →
  ∃ o', h' !! r = Some o' ∧
        ∀ k, present (o' !! k) = present (o !! k) +:+ joined k ws.
Proof.
  induction ws as [|w ws IH]; intros h this o r h' F C E.
  - injection C as <- <-. exists o. split; [done|].
    intros k. simpl. by rewrite app_nil_r.
  - apply Forall_cons in F as [N F]. simpl in C. unfold bind in C.
    destruct (call this w h) as [[r1|e] h1] eqn:C1; [|done].
    apply call_outcome in C1 as (o1 & E1 & -> & ->).
    rewrite E in E1. injection E1 as <-.
    destruct (IH _ _ _ _ _ F C (lookup_new _ _)) as (o' & E' & J).
    exists o'. split; [done|]. intros k. rewrite J. simpl.
    rewrite (text_fragment _ _ N).
    destruct (decide (property w = k)) as [<-|D].
    + rewrite lookup_insert_eq, present_accumulated. cbn [present].
      by rewrite app_assoc.
    + by rewrite lookup_insert_ne.
Qed.

Lemma rendered_fragments (o : gmap string string) :
  present (o !! "value") = "" →
  rendered o =
    present (o !! "elVal") +:+ present (o !! "idVal") +:+
    present (o !! "classVal") +:+ present (o !! "attrVal") +:+
    present (o !! "pseudoCl") +:+ present (o !! "pseudoEl").
Proof.
  intros V. unfold rendered.
  by destruct (o !! "value") as [[|a s]|].
Qed.

(** ** Rendering *)

(** C1. On every builder that has no [value], [stringify] returns the
    fragments that are present, concatenated in the fixed order element,
    id, class, attribute, pseudo-class, pseudo-element, with nothing
    between them. Of a builder made from the literal by fragment calls,
    these are the fragments the calls wrote, category by category and
    within a category in the order of the calls. In particular
    [id('main').class('container').class('editable')] renders as
    [#main.container.editable], and
    [element('a').attr(..).pseudoClass('focus')], with the attribute
    [href$=] followed by [.png] in double quotes, renders as [a], the
    attribute in brackets, and [:focus]. *)
Theorem stringify_concatenates_present :
  (∀ (h : heap) this o,
     h !! this = Some o → o !! "value" = None →
     stringify this h =
       (Normal (present (o !! "elVal") +:+ present (o !! "idVal") +:+
                present (o !! "classVal") +:+ present (o !! "attrVal") +:+
                present (o !! "pseudoCl") +:+ present (o !! "pseudoEl")),
        h)) ∧
  (∀ (h : heap) this ws r h',
     h !! this = Some literal →
     Forall (λ w, property w ≠ "value") ws →
     chain this ws h = (Normal r, h') →
     stringify r h' =
       (Normal (joined "elVal" ws +:+ joined "idVal" ws +:+
                joined "classVal" ws +:+ joined "attrVal" ws +:+
                joined "pseudoCl" ws +:+ joined "pseudoEl" ws),
        h')) ∧
  fst ((r <- id 0 "main";; r <- class r "container";;
        r <- class r "editable";; stringify r) [literal])
    = Normal "#main.container.editable" ∧
  fst ((r <- element 0 "a";;
        r <- attr r ("href$=" +:+ dquote +:+ ".png" +:+ dquote);;
        r <- pseudoClass r "focus";; stringify r) [literal])
    = Normal ("a[href$=" +:+ dquote +:+ ".png" +:+ dquote +:+ "]:focus").
Proof.
  split; [|split; [|split; vm_compute; reflexivity]].
  - intros h this o E V. rewrite (stringify_eq _ _ _ E).
    unfold rendered. by rewrite V.
  - intros h this ws r h' E F C.
    destruct (chain_accumulates _ _ _ _ _ _ F C E) as (o' & E' & J).
    rewrite (stringify_eq _ _ _ E'), rendered_fragments.
    + by rewrite !J.
    + rewrite J. by rewrite (joined_other _ _ F).
Qed.

Lemma stringify_concatenates_present_witness :
  fst (stringify 1 [literal; main_container]) = Normal "#main.container".
Proof.
  rewrite (proj1 stringify_concatenates_present
             [literal; main_container] 1 main_container eq_refl eq_refl).
  vm_compute. reflexivity.
Defined.

(** C7. On every builder that has a [value], [stringify] returns that
    value as it is, whatever fragments the builder also carries. *)
Theorem stringify_returns_value (h : heap) :
  reachable h →
  ∀ this o s, h !! this = Some o → o !! "value" = Some s →
  stringify this h = (Normal s, h).
Proof.
  intros R this o s E V. rewrite (stringify_eq _ _ _ E).
  apply reachable_sound in R.
  destruct (Forall_lookup_1 _ _ _ _ R E) as [_ N].
  unfold rendered. rewrite V in *. destruct s; [done|]. reflexivity.
Qed.

Lemma stringify_returns_value_witness :
  fst (stringify 2
         (snd (call 1 (Combine 1 "+" 1)
                 (snd (call 0 (Element "div") [literal])))))
    = Normal "div + div".
Proof.
  rewrite (stringify_returns_value _
             (reachable_call _ 1 (Combine 1 "+" 1)
                (reachable_call _ 0 (Element "div") reachable_literal))
             2 (<["value" := "div + div"]> el_div) "div + div"
             eq_refl eq_refl).
  reflexivity.
Defined.

(** C8. [stringify] only reads: it leaves the store as it found it, and
    called twice on the same builder it gives the same result twice. *)
Theorem stringify_reads_only (h : heap) this :
  snd (stringify this h) = h ∧
  (s1 <- stringify this;; s2 <- stringify this;; ret (s1, s2)) h =
    (match fst (stringify this h) with
     | Normal s => Normal (s, s)
     | Throw e => Throw e
     end, h).
Proof.
  destruct (h !! this) as [o|] eqn:E.
  - rewrite (stringify_eq _ _ _ E). split; [done|].
    by rewrite !(bind_Normal _ _ _ _ _ (stringify_eq _ _ _ E)).
  - rewrite (stringify_dangling _ _ E). split; [done|].
    by rewrite (bind_Throw _ _ _ _ _ (stringify_dangling _ _ E)).
Qed.

(** ** Combination *)

Lemma stringify_Normal (h : heap) this s :
  fst (stringify this h) = Normal s →
  ∃ o, h !! this = Some o ∧ s = rendered o.
Proof.
  destruct (h !! this) as [o|] eqn:E.
  - rewrite (stringify_eq _ _ _ E). intros [= <-]. eauto.
  - by rewrite (stringify_dangling _ _ E).
Qed.

Lemma truthy_combined (s1 combinator s2 : string) :
  truthy (Some (s1 +:+ " " +:+ combinator +:+ " " +:+ s2)) = true.
Proof. by apply truthy_app_r. Qed.

Lemma rendered_value (o : gmap string string) s :
  truthy (Some s) = true →
  rendered (<["value" := accumulated o "value" s]> o)
  = accumulated o "value" s.
Proof.
  intros T. unfold rendered. rewrite lookup_insert_eq.
  assert (truthy (Some (accumulated o "value" s)) = true) as ->; [|done].
  unfold accumulated. destruct (truthy (o !! "value")); [|done].
  by apply truthy_app_r.
Qed.

Lemma combine_then_stringify (h : heap) this o a oa b ob combinator :
  h !! this = Some o → h !! a = Some oa → h !! b = Some ob →
  fst ((r <- combine this a combinator b;; stringify r) h)
  = Normal (accumulated o "value"
              (rendered oa +:+ " " +:+ combinator +:+ " " +:+ rendered ob)).
Proof.
  intros E Ea Eb.
  rewrite (bind_Normal _ _ _ _ _
             (combine_eq _ _ _ _ _ combinator _ _ E
                (lookup_old _ o _ _ Ea) (lookup_old _ o _ _ Eb))).
  rewrite (stringify_eq _ _ _ (lookup_new _ _)). simpl.
  by rewrite rendered_value by apply truthy_combined.
Qed.

(** C5. For all builders [a] and [b] and every token, [combine] of them,
    called on a builder that has no [value], gives a builder that renders
    as what [a] renders to, a space, the token, a space, and what [b]
    renders to. The call does not throw, whatever fragments the receiver
    and the arguments carry and whatever the token is. *)
Theorem combine_renders (h : heap) this o a b combinator sa sb :
  h !! this = Some o → o !! "value" = None →
  fst (stringify a h) = Normal sa →
  fst (stringify b h) = Normal sb →
  fst ((r <- combine this a combinator b;; stringify r) h)
  = Normal (sa +:+ " " +:+ combinator +:+ " " +:+ sb).
Proof.
  intros E V (oa & Ea & ->)%stringify_Normal (ob & Eb & ->)%stringify_Normal.
  rewrite (combine_then_stringify _ _ _ _ _ _ _ _ E Ea Eb).
  unfold accumulated. by rewrite V.
Qed.

Lemma combine_renders_witness :
  fst ((r <- combine 0 1 "+" 2;; stringify r) [literal; el_div; el_p])
  = Normal "div + p".
Proof.
  rewrite (combine_renders [literal; el_div; el_p] 0 literal 1 2 "+" "div" "p"
             eq_refl eq_refl eq_refl eq_refl).
  reflexivity.
Defined.

(** The example of the source's own documentation. *)
Example combine_documented :
  fst ((a <- chain 0 [Element "div"; Id "main"; Class "container";
                      Class "draggable"];;
        b <- chain 0 [Element "table"; Id "data"];;
        c <- chain 0 [Element "tr"; PseudoClass "nth-of-type(even)"];;
        d <- chain 0 [Element "td"; PseudoClass "nth-of-type(even)"];;
        cd <- combine 0 c " " d;;
        bcd <- combine 0 b "~" cd;;
        r <- combine 0 a "+" bcd;;
        stringify r) [literal])
  = Normal "div#main.container.draggable + table#data ~ tr:nth-of-type(even)   td:nth-of-type(even)".
Proof. vm_compute. reflexivity. Qed.

(** C9. [combine] called on a builder that already has a [value] keeps
    that value and appends the new combined text to it, with nothing in
    between; [stringify] returns the two together. *)
Theorem combine_appends (h : heap) :
  reachable h →
  ∀ this o s c d combinator sc sd,
  h !! this = Some o → o !! "value" = Some s →
  fst (stringify c h) = Normal sc →
  fst (stringify d h) = Normal sd →
  fst ((r <- combine this c combinator d;; stringify r) h)
  = Normal (s +:+ sc +:+ " " +:+ combinator +:+ " " +:+ sd).
Proof.
  intros R this o s c d t sc sd E V
    (oc & Ec & ->)%stringify_Normal (od & Ed & ->)%stringify_Normal.
  rewrite (combine_then_stringify _ _ _ _ _ _ _ _ E Ec Ed).
  apply reachable_sound in R.
  destruct (Forall_lookup_1 _ _ _ _ R E) as [_ N].
  unfold accumulated. rewrite V in *. by destruct s.
Qed.

Lemma combine_appends_witness :
  fst ((r <- combine 3 2 ">" 1;; stringify r)
         (snd (call 0 (Combine 1 "+" 2)
                 (snd (call 0 (Element "p")
                         (snd (call 0 (Element "div") [literal])))))))
  = Normal "div + pp > div".
Proof.
  rewrite (combine_appends _
             (reachable_call _ 0 (Combine 1 "+" 2)
                (reachable_call _ 0 (Element "p")
                   (reachable_call _ 0 (Element "div") reachable_literal)))
             3 (<["value" := "div + p"]> literal) "div + p" 2 1 ">" "p" "div"
             eq_refl eq_refl eq_refl eq_refl).
  reflexivity.
Defined.

(** ** The receiver is left alone *)

(** C6. Every fragment method and [combine] leaves every object of the
    store as it was, the receiver among them, so that each of them renders
    after the call as it did before; the builder a call returns is an
    object that was not in the store before. A builder can thus be the
    common start of several selectors: from [element('div')], both
    [id('x')] and [class('y')] can be derived, and the three render as
    [div#x], [div.y] and [div]. *)
Theorem receiver_not_mutated :
  (∀ (h : heap) this w b o,
     h !! b = Some o →
     snd (call this w h) !! b = Some o ∧
     fst (stringify b (snd (call this w h))) = fst (stringify b h)) ∧
  (∀ (h : heap) this w r,
     fst (call this w h) = Normal r →
     h !! r = None ∧ is_Some (snd (call this w h) !! r)) ∧
  fst ((prefix <- element 0 "div";;
        r1 <- id prefix "x";; r2 <- class prefix "y";;
        s1 <- stringify r1;; s2 <- stringify r2;; s <- stringify prefix;;
        ret (s1, s2, s)) [literal])
  = Normal ("div#x", "div.y", "div").
Proof.
  split; [|split; [|vm_compute; reflexivity]].
  - intros h this w b o E.
    destruct (call this w h) as [c h'] eqn:C. simpl.
    pose proof (call_frame _ _ _ _ _ C _ _ E) as E'.
    split; [done|].
    by rewrite (stringify_eq _ _ _ E), (stringify_eq _ _ _ E').
  - intros h this w r.
    destruct (call this w h) as [c h'] eqn:C. simpl. intros ->.
    apply call_outcome in C as (o & _ & -> & ->). split.
    + by apply lookup_ge_None.
    + rewrite lookup_new. eauto.
Qed.

Lemma receiver_not_mutated_witness :
  snd (call 1 (Id "x") [literal; el_div]) !! 1 = Some el_div ∧
  fst (stringify 1 (snd (call 1 (Id "x") [literal; el_div])))
  = fst (stringify 1 [literal; el_div]).
Proof.
  apply (proj1 receiver_not_mutated [literal; el_div] 1 (Id "x") 1 el_div).
  reflexivity.
Defined.

(** ** Order and cardinality *)

Lemma builder_errors (o : gmap string string) :
  is_builder o →
  Error (o !! "countErrText") = CardinalityError ∧
  Error (o !! "orderErrText") = OrderError.
Proof. intros [-> ->]. done. Qed.

Lemma error_kinds_differ : CardinalityError ≠ OrderError.
Proof. discriminate. Qed.

(** What each guard does, read off the receiver. *)
Lemma element_twice (h : heap) this o value :
  h !! this = Some o → is_builder o → truthy (o !! "elVal") = true →
  element this value h = (Throw CardinalityError, h).
Proof.
  intros E [B _]%builder_errors T.
  by rewrite (element_eq _ _ _ E), T, B.
Qed.

Lemma id_twice (h : heap) this o value :
  h !! this = Some o → is_builder o → truthy (o !! "idVal") = true →
  id this value h = (Throw CardinalityError, h).
Proof.
  intros E [B _]%builder_errors T.
  by rewrite (id_eq _ _ _ E), T, B.
Qed.

Lemma pseudoElement_twice (h : heap) this o value :
  h !! this = Some o → is_builder o → truthy (o !! "pseudoEl") = true →
  pseudoElement this value h = (Throw CardinalityError, h).
Proof.
  intros E [B _]%builder_errors T.
  by rewrite (pseudoElement_eq _ _ _ E), T, B.
Qed.

Lemma element_after_id (h : heap) this o value :
  h !! this = Some o → is_builder o → truthy (o !! "idVal") = true →
  element this value h =
    (Throw (if truthy (o !! "elVal") then CardinalityError else OrderError), h).
Proof.
  intros E [Bc Bo]%builder_errors T.
  rewrite (element_eq _ _ _ E), T, Bc, Bo.
  by destruct (truthy (o !! "elVal")).
Qed.

Lemma id_after_class (h : heap) this o value :
  h !! this = Some o → is_builder o → truthy (o !! "classVal") = true →
  id this value h =
    (Throw (if truthy (o !! "idVal") then CardinalityError else OrderError), h).
Proof.
  intros E [Bc Bo]%builder_errors T.
  rewrite (id_eq _ _ _ E), T, Bc, Bo.
  by destruct (truthy (o !! "idVal")).
Qed.

Lemma id_after_pseudoElement (h : heap) this o value :
  h !! this = Some o → is_builder o → truthy (o !! "pseudoEl") = true →
  id this value h =
    (Throw (if truthy (o !! "idVal") then CardinalityError else OrderError), h).
Proof.
  intros E [Bc Bo]%builder_errors T.
  rewrite (id_eq _ _ _ E), T, Bc, Bo, orb_true_r.
  by destruct (truthy (o !! "idVal")).
Qed.

Lemma class_after_attr (h : heap) this o value :
  h !! this = Some o → is_builder o → truthy (o !! "attrVal") = true →
  class this value h = (Throw OrderError, h).
Proof.
  intros E [_ B]%builder_errors T.
  by rewrite (class_eq _ _ _ E), T, B.
Qed.

Lemma attr_after_pseudoClass (h : heap) this o value :
  h !! this = Some o → is_builder o → truthy (o !! "pseudoCl") = true →
  attr this value h = (Throw OrderError, h).
Proof.
  intros E [_ B]%builder_errors T.
  by rewrite (attr_eq _ _ _ E), T, B.
Qed.

Lemma pseudoClass_after_pseudoElement (h : heap) this o value :
  h !! this = Some o → is_builder o → truthy (o !! "pseudoEl") = true →
  pseudoClass this value h = (Throw OrderError, h).
Proof.
  intros E [_ B]%builder_errors T.
  by rewrite (pseudoClass_eq _ _ _ E), T, B.
Qed.

(** A fragment, once written, is still there at the end of the chain, and
    a builder is still a builder. *)
Lemma builder_write (h : heap) (o : gmap string string) w :
  is_builder o →
  is_builder (<[property w := accumulated o (property w) (text h w)]> o).
Proof.
  intros [Hc Ho]. destruct (property_not_text w) as [Nc No].
  split; by rewrite lookup_insert_ne.
Qed.

Lemma chain_builder ws : ∀ (h : heap) this r h' o,
  chain this ws h = (Normal r, h') → h !! this = Some o → is_builder o →
  ∃ o', h' !! r = Some o' ∧ is_builder o'.
Proof.
  induction ws as [|w ws IH]; intros h this r h' o C E B.
  - injection C as <- <-. eauto.
  - simpl in C. unfold bind in C.
    destruct (call this w h) as [[r1|e] h1] eqn:C1; [|done].
    apply call_outcome in C1 as (o1 & E1 & -> & ->).
    rewrite E in E1. injection E1 as <-.
    eapply IH; [exact C|apply lookup_new|by apply builder_write].
Qed.

Lemma written_stays (h : heap) this o w ws r h' :
  h !! this = Some o → is_builder o →
  truthy (Some (text (h ++ [o]) w)) = true →
  chain this (w :: ws) h = (Normal r, h') →
  ∃ o', h' !! r = Some o' ∧ is_builder o' ∧
        truthy (o' !! property w) = true.
Proof.
  intros E B T C. simpl in C. unfold bind in C.
  destruct (call this w h) as [[r1|e] h1] eqn:C1; [|done].
  apply call_outcome in C1 as (o1 & E1 & -> & ->).
  rewrite E in E1. injection E1 as <-.
  destruct (chain_builder _ _ _ _ _ _ C (lookup_new _ _)
              (builder_write _ _ _ B)) as (o' & E' & B').
  destruct (chain_truthy _ _ _ _ _ _ (property w) C (lookup_new _ _)
              (truthy_text _ T _ _)) as (o'' & E'' & T').
  rewrite E' in E''. injection E'' as <-. eauto.
Qed.

(** C4, as the code has it. On a builder reached by a chain of calls that
    wrote a class fragment, [id] throws: [OrderError] when the builder has
    no id fragment, [CardinalityError] when it has one. After an attribute
    fragment was written [class] throws [OrderError], after a pseudo-class
    fragment [attr] throws [OrderError], and after the pseudo-element
    fragment [pseudoClass] throws [OrderError]. The store is left as it
    was each time. *)
Theorem out_of_order_refused (h : heap) this o written ws r h' value :
  h !! this = Some o → is_builder o →
  (chain this (Class written :: ws) h = (Normal r, h') →
   ∃ o', h' !! r = Some o' ∧
     id r value h' =
       (Throw (if truthy (o' !! "idVal") then CardinalityError
               else OrderError), h')) ∧
  (chain this (Attr written :: ws) h = (Normal r, h') →
   class r value h' = (Throw OrderError, h')) ∧
  (chain this (PseudoClass written :: ws) h = (Normal r, h') →
   attr r value h' = (Throw OrderError, h')) ∧
  (chain this (PseudoElement written :: ws) h = (Normal r, h') →
   pseudoClass r value h' = (Throw OrderError, h')).
Proof.
  intros E B. repeat split; intros C;
    (eapply written_stays in C as (o' & E' & B' & T);
       [|exact E|exact B|reflexivity]).
  - exists o'. split; [done|]. by apply id_after_class.
  - by eapply class_after_attr.
  - by eapply attr_after_pseudoClass.
  - by eapply pseudoClass_after_pseudoElement.
Qed.

Lemma out_of_order_refused_witness :
  fst (id 2 "late" (snd (chain 0 [Class "a"; Attr "b"] [literal])))
  = Throw OrderError ∧
  fst (class 2 "late" (snd (chain 0 [Attr "a"; PseudoClass "b"] [literal])))
  = Throw OrderError.
Proof.
  split.
  - destruct (proj1 (out_of_order_refused [literal] 0 literal "a" [Attr "b"] 2
                       (snd (chain 0 [Class "a"; Attr "b"] [literal])) "late"
                       eq_refl (conj eq_refl eq_refl)) eq_refl)
      as (o' & E' & ->).
    injection E' as <-. reflexivity.
  - rewrite (proj1 (proj2 (out_of_order_refused [literal] 0 literal "a"
                       [PseudoClass "b"] 2
                       (snd (chain 0 [Attr "a"; PseudoClass "b"] [literal]))
                       "late" eq_refl (conj eq_refl eq_refl))) eq_refl).
    reflexivity.
Defined.

(** C4, as the specification words it, fails: on [id('a').class('b')] a
    class fragment was written, and [id] throws [CardinalityError], not
    [OrderError]. *)
Lemma id_after_class_with_id_set :
  fst ((r <- chain 0 [Id "a"; Class "b"];; id r "c") [literal])
  = Throw CardinalityError ∧
  fst ((r <- chain 0 [Id "a"; Class "b"];; id r "c") [literal])
  ≠ Throw OrderError.
Proof. split; [vm_compute; reflexivity|]. vm_compute. discriminate. Qed.

(** C2: the order is checked against some later categories only.
    [element] looks at the id fragment alone, so [class('container')
    .element('div')] is accepted and renders as [div.container]; [id]
    looks at the class and pseudo-element fragments, so [attr('href')
    .id('main')] is accepted; likewise [pseudoClass('hover')
    .class('c')] and [pseudoElement('after').attr('href')]. *)
Theorem later_category_not_checked :
  fst ((r <- chain 0 [Class "container"; Element "div"];; stringify r)
         [literal]) = Normal "div.container" ∧
  fst ((r <- chain 0 [Attr "href"; Id "main"];; stringify r) [literal])
    = Normal "#main[href]" ∧
  fst ((r <- chain 0 [PseudoClass "hover"; Class "c"];; stringify r)
         [literal]) = Normal ".c:hover" ∧
  fst ((r <- chain 0 [PseudoElement "after"; Attr "href"];; stringify r)
         [literal]) = Normal "[href]::after".
Proof. repeat split; vm_compute; reflexivity. Qed.

(** C3: [element] tests its fragment for truth, and the empty string is
    falsy: after [element('')] a second [element] call is accepted. *)
Theorem element_rewritten_after_empty :
  fst ((r <- chain 0 [Element ""; Element "div"];; stringify r) [literal])
  = Normal "div".
Proof. vm_compute. reflexivity. Qed.

(** ** Chains in category order are accepted *)

Lemma fragment_call_property (w : write) :
  fragment_call w = true ↔ property w ≠ "value".
Proof. by destruct w. Qed.

Lemma property_rank (w w' : write) :
  property w = property w' → rank w = rank w'.
Proof. by destruct w, w'. Qed.

Lemma clear_from_keys lo (o : gmap string string) :
  clear_from lo o = true →
  (lo ≤ 0 → truthy (o !! "elVal") = false) ∧
  (lo ≤ 1 → truthy (o !! "idVal") = false) ∧
  (lo ≤ 2 → truthy (o !! "classVal") = false) ∧
  (lo ≤ 3 → truthy (o !! "attrVal") = false) ∧
  (lo ≤ 4 → truthy (o !! "pseudoCl") = false) ∧
  (lo ≤ 5 → truthy (o !! "pseudoEl") = false).
Proof.
  unfold clear_from, categories. simpl.
  rewrite !andb_true_iff, !orb_true_iff, !negb_true_iff, !Nat.ltb_lt.
  intros (H0 & H1 & H2 & H3 & H4 & H5 & _).
  repeat split; intros L;
    [destruct H0|destruct H1|destruct H2|destruct H3|destruct H4|destruct H5];
    done || lia.
Qed.

Lemma clear_from_write lo (o : gmap string string) w s :
  clear_from lo o = true → lo ≤ S (rank w) →
  clear_from (S (rank w)) (<[property w := s]> o) = true.
Proof.
  intros (H0 & H1 & H2 & H3 & H4 & H5)%clear_from_keys L.
  unfold clear_from, categories.
  destruct w; simpl in *;
    rewrite ?lookup_insert_ne by done;
    rewrite ?H0, ?H1, ?H2, ?H3, ?H4, ?H5 by lia; done.
Qed.

(** In category order every guard finds the fragments it looks at
    absent. *)
Lemma in_order_call (h : heap) this o lo w :
  h !! this = Some o → clear_from lo o = true →
  fragment_call w = true →
  lo ≤ (if single w then rank w else S (rank w)) →
  call this w h =
    (Normal (length h),
     h ++ [<[property w := accumulated o (property w) (fragment w)]> o]).
Proof.
  intros E (H0 & H1 & H2 & H3 & H4 & H5)%clear_from_keys F L.
  destruct w as [v|v|v|v|v|v|]; simpl in *; [..|done].
  - by rewrite (element_eq _ _ _ E), H0, H1 by lia.
  - by rewrite (id_eq _ _ _ E), H1, H2, H5 by lia.
  - by rewrite (class_eq _ _ _ E), H3 by lia.
  - by rewrite (attr_eq _ _ _ E), H4 by lia.
  - by rewrite (pseudoClass_eq _ _ _ E), H5 by lia.
  - by rewrite (pseudoElement_eq _ _ _ E), H5 by lia.
Qed.

Lemma in_order_chain ws : ∀ (h : heap) this o lo,
  h !! this = Some o → clear_from lo o = true → in_order lo ws = true →
  ∃ r h', chain this ws h = (Normal r, h').
Proof.
  induction ws as [|w ws IH]; intros h this o lo E C I.
  - by exists this, h.
  - simpl in I. apply andb_true_iff in I as [[F L]%andb_true_iff I].
    apply Nat.leb_le in L. simpl.
    rewrite (bind_Normal _ _ _ _ _ (in_order_call _ _ _ _ _ E C F L)).
    eapply IH; [apply lookup_new| |exact I].
    apply (clear_from_write lo); [done|]. destruct (single w); lia.
Qed.

(** X1. A chain of fragment calls in category order, single-valued
    categories at most once, is never refused: made on a builder that has
    no fragment of the chain's categories or later ones (the literal, for
    one), every call of it returns. *)
Theorem in_order_accepted (h : heap) this o lo ws :
  h !! this = Some o → clear_from lo o = true → in_order lo ws = true →
  ∃ r, fst (chain this ws h) = Normal r.
Proof.
  intros E C I.
  destruct (in_order_chain _ _ _ _ _ E C I) as (r & h' & ->). by exists r.
Qed.

Lemma in_order_accepted_witness :
  ∃ r, fst (chain 1 [Class "a"; Class "b"; Attr "c"; PseudoElement "d"]
              [literal; main_container]) = Normal r.
Proof.
  apply (in_order_accepted [literal; main_container] 1 main_container 3);
    reflexivity.
Defined.

(** ** Chains in category order render as they were written *)

Lemma falsy_present (v : jsval) : truthy v = false → present v = "".
Proof. by destruct v as [[|a s]|]. Qed.

Lemma in_order_ranks ws : ∀ lo,
  in_order lo ws = true →
  Forall (λ w, fragment_call w = true ∧ lo ≤ S (rank w)) ws.
Proof.
  induction ws as [|w ws IH]; intros lo I; [constructor|].
  simpl in I. apply andb_true_iff in I as [[F L]%andb_true_iff I].
  apply Nat.leb_le in L.
  assert (lo ≤ S (rank w)) as L' by (destruct (single w); lia).
  constructor; [done|].
  eapply Forall_impl; [exact (IH _ I)|]. simpl. intros w' [F' L'']. split; [done|lia].
Qed.

Lemma in_order_fragments lo ws :
  in_order lo ws = true → Forall (λ w, property w ≠ "value") ws.
Proof.
  intros I. eapply Forall_impl; [exact (in_order_ranks _ _ I)|].
  simpl. intros w [F _]. by apply fragment_call_property.
Qed.

(** Later calls write nothing to an earlier category. *)
Lemma joined_earlier w ws :
  Forall (λ w', fragment_call w' = true ∧ S (rank w) ≤ S (rank w')) ws →
  ∀ w0, rank w0 < rank w → joined (property w0) ws = "".
Proof.
  intros F w0 L. apply joined_other.
  eapply Forall_impl; [exact F|]. simpl.
  intros w' [_ L'] P%property_rank. lia.
Qed.

Lemma categories_written ws : ∀ lo,
  in_order lo ws = true →
  joined "elVal" ws +:+ joined "idVal" ws +:+ joined "classVal" ws +:+
  joined "attrVal" ws +:+ joined "pseudoCl" ws +:+ joined "pseudoEl" ws
  = written ws.
Proof.
  induction ws as [|w ws IH]; intros lo I; [done|].
  simpl in I. apply andb_true_iff in I as [[F _]%andb_true_iff I].
  pose proof (joined_earlier w ws (in_order_ranks _ _ I)) as Z.
  pose proof (Z (Element "")) as Z0. pose proof (Z (Id "")) as Z1.
  pose proof (Z (Class "")) as Z2. pose proof (Z (Attr "")) as Z3.
  pose proof (Z (PseudoClass "")) as Z4. clear Z.
  cbn [written]. rewrite <- (IH _ I). clear IH I.
  destruct w as [v|v|v|v|v|v|]; [..|done]; cbn [joined property];
    repeat (rewrite decide_False by done);
    rewrite decide_True by done;
    simpl in Z0, Z1, Z2, Z3, Z4;
    rewrite ?Z0, ?Z1, ?Z2, ?Z3, ?Z4 by lia;
    by rewrite ?app_assoc.
Qed.

(** X2. The builder a chain in category order makes from a builder with
    no fragment and no [value] renders as the fragments of the calls, one
    after the other in the order of the calls: each value as it was given,
    behind the mark of its category. *)
Theorem in_order_renders_as_written (h : heap) this o ws :
  h !! this = Some o → clear_from 0 o = true →
  truthy (o !! "value") = false → in_order 0 ws = true →
  fst ((r <- chain this ws;; stringify r) h) = Normal (written ws).
Proof.
  intros E C V I.
  destruct (in_order_chain _ _ _ _ _ E C I) as (r & h' & R).
  rewrite (bind_Normal _ _ _ _ _ R).
  destruct (chain_accumulates _ _ _ _ _ _ (in_order_fragments _ _ I) R E)
    as (o' & E' & J).
  rewrite (stringify_eq _ _ _ E'). simpl. f_equal.
  apply clear_from_keys in C as (H0 & H1 & H2 & H3 & H4 & H5).
  rewrite rendered_fragments.
  - rewrite !J, !falsy_present by auto with lia.
    apply (categories_written _ _ I).
  - rewrite J, (joined_other _ _ (in_order_fragments _ _ I)).
    by rewrite falsy_present.
Qed.

Lemma in_order_renders_as_written_witness :
  fst ((r <- chain 0 [Element "ul"; Id "nav"; Class "a"; Class "b";
                      Attr "x"; PseudoClass "hover"; PseudoElement "after"];;
        stringify r) [literal])
  = Normal "ul#nav.a.b[x]:hover::after".
Proof.
  rewrite (in_order_renders_as_written [literal] 0 literal
             [Element "ul"; Id "nav"; Class "a"; Class "b";
              Attr "x"; PseudoClass "hover"; PseudoElement "after"]
             eq_refl eq_refl eq_refl eq_refl).
  reflexivity.
Defined.

(** ** Combinations of combinations *)

Lemma combine_Normal (h : heap) this o a oa b ob combinator :
  h !! this = Some o → h !! a = Some oa → h !! b = Some ob →
  combine this a combinator b h =
    (Normal (length h),
     h ++ [<["value" :=
              accumulated o "value"
                (rendered oa +:+ " " +:+ combinator +:+ " " +:+ rendered ob)]>
            o]).
Proof.
  intros E Ea Eb.
  exact (combine_eq _ _ _ _ _ combinator _ _ E
           (lookup_old _ o _ _ Ea) (lookup_old _ o _ _ Eb)).
Qed.

(** X3. Combinations nest either way to the same selector: [combine] of
    [combine(a, t, b)], [u] and [c] renders as [combine] of [a], [t] and
    [combine(b, u, c)] does, namely as the three selectors with the two
    tokens between them, each token between single spaces. *)
Theorem combine_nests_either_way (h : heap) this o a b c t u sa sb sc :
  h !! this = Some o → o !! "value" = None →
  fst (stringify a h) = Normal sa →
  fst (stringify b h) = Normal sb →
  fst (stringify c h) = Normal sc →
  fst ((ab <- combine this a t b;; r <- combine this ab u c;; stringify r) h)
  = Normal (sa +:+ " " +:+ t +:+ " " +:+ sb +:+ " " +:+ u +:+ " " +:+ sc) ∧
  fst ((bc <- combine this b u c;; r <- combine this a t bc;; stringify r) h)
  = Normal (sa +:+ " " +:+ t +:+ " " +:+ sb +:+ " " +:+ u +:+ " " +:+ sc).
Proof.
  intros E V (oa & Ea & ->)%stringify_Normal (ob & Eb & ->)%stringify_Normal
    (oc & Ec & ->)%stringify_Normal.
  assert (∀ s, accumulated o "value" s = s) as A.
  { intros s. unfold accumulated. by rewrite V. }
  split.
  - rewrite (bind_Normal _ _ _ _ _ (combine_Normal _ _ _ _ _ _ _ t E Ea Eb)).
    rewrite (combine_then_stringify _ _ _ _ _ _ _ u
               (lookup_old _ _ _ _ E) (lookup_new _ _) (lookup_old _ _ _ _ Ec)).
    rewrite rendered_value by apply truthy_combined.
    by rewrite !A, !app_assoc.
  - rewrite (bind_Normal _ _ _ _ _ (combine_Normal _ _ _ _ _ _ _ u E Eb Ec)).
    rewrite (combine_then_stringify _ _ _ _ _ _ _ t
               (lookup_old _ _ _ _ E) (lookup_old _ _ _ _ Ea) (lookup_new _ _)).
    rewrite rendered_value by apply truthy_combined.
    by rewrite !A.
Qed.

Lemma combine_nests_either_way_witness :
  fst ((ab <- combine 0 1 "+" 2;; r <- combine 0 ab ">" 1;; stringify r)
         [literal; el_div; el_p])
  = Normal "div + p > div" ∧
  fst ((bc <- combine 0 2 ">" 1;; r <- combine 0 1 "+" bc;; stringify r)
         [literal; el_div; el_p])
  = Normal "div + p > div".
Proof.
  apply (combine_nests_either_way [literal; el_div; el_p] 0 literal 1 2 1
           "+" ">" "div" "p" "div"); reflexivity.
Defined.

(** X4. Fragments added to a combined selector do not show: on a builder
    that has a [value], whatever fragment calls are made and accepted, the
    builder they end in still renders as that value. *)
Theorem fragments_after_combine_hidden (h : heap) :
  reachable h →
  ∀ this o s ws r h',
  h !! this = Some o → o !! "value" = Some s →
  Forall (λ w, fragment_call w = true) ws →
  chain this ws h = (Normal r, h') →
  stringify r h' = (Normal s, h').
Proof.
  intros R this o s ws r h' E V F C.
  assert (Forall (λ w, property w ≠ "value") ws) as F'.
  { eapply Forall_impl; [exact F|]. intros w. apply fragment_call_property. }
  destruct (chain_accumulates _ _ _ _ _ _ F' C E) as (o' & E' & J).
  specialize (J "value"). rewrite V, (joined_other _ _ F'), app_nil_r in J.
  apply reachable_sound in R.
  destruct (Forall_lookup_1 _ _ _ _ R E) as [_ N].
  rewrite (stringify_eq _ _ _ E'). unfold rendered.
  destruct (o' !! "value") as [s'|]; simpl in J; subst.
  - rewrite V in N. by destruct s.
  - by rewrite V in N.
Qed.

Lemma fragments_after_combine_hidden_witness :
  fst (stringify 4
         (snd (chain 2 [Id "i"; Class "x"]
                 (snd (call 0 (Combine 1 ">" 1)
                         (snd (call 0 (Element "div") [literal])))))))
  = Normal "div > div".
Proof.
  rewrite (fragments_after_combine_hidden _
             (reachable_call _ 0 (Combine 1 ">" 1)
                (reachable_call _ 0 (Element "div") reachable_literal))
             2 (<["value" := "div > div"]> literal) "div > div"
             [Id "i"; Class "x"] 4
             (snd (chain 2 [Id "i"; Class "x"]
                     (snd (call 0 (Combine 1 ">" 1)
                             (snd (call 0 (Element "div") [literal]))))))
             eq_refl eq_refl ltac:(repeat constructor) eq_refl).
  reflexivity.
Defined.

(** ** Refusals *)

(** X5. A fragment method that throws has done nothing else: its guards
    come before the copy, so the store after the exception is the store
    before the call, with no object added. *)
Theorem refused_call_allocates_nothing (h : heap) this w e :
  fragment_call w = true →
  fst (call this w h) = Throw e → snd (call this w h) = h.
Proof.
  intros F. destruct (h !! this) as [o|] eqn:E.
  2:{ by rewrite (call_dangling _ _ _ E). }
  destruct w as [v|v|v|v|v|v|]; simpl; [..|done].
  - rewrite (element_eq _ _ _ E). by repeat case_match.
  - rewrite (id_eq _ _ _ E). by repeat case_match.
  - rewrite (class_eq _ _ _ E). by repeat case_match.
  - rewrite (attr_eq _ _ _ E). by repeat case_match.
  - rewrite (pseudoClass_eq _ _ _ E). by repeat case_match.
  - rewrite (pseudoElement_eq _ _ _ E). by repeat case_match.
Qed.

Lemma refused_call_allocates_nothing_witness :
  snd (call 1 (Id "again") [literal; main_container])
  = [literal; main_container].
Proof.
  apply (refused_call_allocates_nothing [literal; main_container] 1
           (Id "again") CardinalityError); reflexivity.
Defined.

(** X6. Once an id fragment was written, every later [id] call throws
    [CardinalityError], whatever the first value was, the empty string
    too; the same holds of [pseudoElement]; and of [element] when the
    first value was not the empty string. *)
Theorem second_write_refused (h : heap) this o first ws r h' value :
  h !! this = Some o → is_builder o →
  (chain this (Id first :: ws) h = (Normal r, h') →
   id r value h' = (Throw CardinalityError, h')) ∧
  (chain this (PseudoElement first :: ws) h = (Normal r, h') →
   pseudoElement r value h' = (Throw CardinalityError, h')) ∧
  (first ≠ "" → chain this (Element first :: ws) h = (Normal r, h') →
   element r value h' = (Throw CardinalityError, h')).
Proof.
  intros E B. repeat split.
  - intros C.
    eapply written_stays in C as (o' & E' & B' & T);
      [|exact E|exact B|reflexivity].
    by eapply id_twice.
  - intros C.
    eapply written_stays in C as (o' & E' & B' & T);
      [|exact E|exact B|reflexivity].
    by eapply pseudoElement_twice.
  - intros N C.
    eapply written_stays in C as (o' & E' & B' & T);
      [|exact E|exact B|by destruct first].
    by eapply element_twice.
Qed.

Lemma second_write_refused_witness :
  fst (id 2 "b" (snd (chain 0 [Id ""; Class "c"] [literal])))
  = Throw CardinalityError.
Proof.
  rewrite (proj1 (second_write_refused [literal] 0 literal "" [Class "c"] 2
                    (snd (chain 0 [Id ""; Class "c"] [literal])) "b"
                    eq_refl (conj eq_refl eq_refl)) eq_refl).
  reflexivity.
Defined.

(** X7. The two order checks besides those of neighbouring categories:
    once an id fragment was written [element] throws, and once the
    pseudo-element fragment was written [id] throws; the error is
    [OrderError] unless the fragment asked for is itself there already,
    which makes it [CardinalityError]. *)
Theorem element_and_id_come_first (h : heap) this o first ws r h' value :
  h !! this = Some o → is_builder o →
  (chain this (Id first :: ws) h = (Normal r, h') →
   ∃ o', h' !! r = Some o' ∧
     element r value h' =
       (Throw (if truthy (o' !! "elVal") then CardinalityError
               else OrderError), h')) ∧
  (chain this (PseudoElement first :: ws) h = (Normal r, h') →
   ∃ o', h' !! r = Some o' ∧
     id r value h' =
       (Throw (if truthy (o' !! "idVal") then CardinalityError
               else OrderError), h')).
Proof.
  intros E B. split; intros C;
    (eapply written_stays in C as (o' & E' & B' & T);
       [|exact E|exact B|reflexivity]);
    exists o'; (split; [done|]).
  - by apply element_after_id.
  - by apply id_after_pseudoElement.
Qed.

Lemma element_and_id_come_first_witness :
  fst (element 1 "div" (snd (chain 0 [Id "main"] [literal])))
  = Throw OrderError.
Proof.
  destruct (proj1 (element_and_id_come_first [literal] 0 literal "main" [] 1
                     (snd (chain 0 [Id "main"] [literal])) "div"
                     eq_refl (conj eq_refl eq_refl)) eq_refl)
    as (o' & E' & ->).
  injection E' as <-. reflexivity.
Defined.

(** X9. On the builders of a reachable store the methods throw nothing
    but the two errors of the literal: [element] and [id] either of them,
    [class], [attr] and [pseudoClass] only [OrderError], [pseudoElement]
    only [CardinalityError]; and [combine], given two builders, does not
    throw at all. *)
Theorem errors_thrown (h : heap) :
  reachable h →
  ∀ this o w e, h !! this = Some o → fst (call this w h) = Throw e →
  match w with
  | Element _ | Id _ => e = CardinalityError ∨ e = OrderError
  | Class _ | Attr _ | PseudoClass _ => e = OrderError
  | PseudoElement _ => e = CardinalityError
  | Combine selector1 _ selector2 =>
      h !! selector1 = None ∨ h !! selector2 = None
  end.
Proof.
  intros R this o w e E. apply reachable_sound in R.
  destruct (Forall_lookup_1 _ _ _ _ R E) as [[Bc Bo]%builder_errors _].
  destruct w as [v|v|v|v|v|v|s1 t s2]; simpl.
  - rewrite (element_eq _ _ _ E), Bc, Bo.
    repeat case_match; intros [= <-]; auto.
  - rewrite (id_eq _ _ _ E), Bc, Bo.
    repeat case_match; intros [= <-]; auto.
  - rewrite (class_eq _ _ _ E), Bo. by case_match; intros [= <-].
  - rewrite (attr_eq _ _ _ E), Bo. by case_match; intros [= <-].
  - rewrite (pseudoClass_eq _ _ _ E), Bo. by case_match; intros [= <-].
  - rewrite (pseudoElement_eq _ _ _ E), Bc. by case_match; intros [= <-].
  - destruct (h !! s1) as [o1|] eqn:E1; [|by left].
    destruct (h !! s2) as [o2|] eqn:E2; [|by right].
    by rewrite (combine_Normal _ _ _ _ _ _ _ t E E1 E2).
Qed.

Lemma errors_thrown_witness :
  CardinalityError = CardinalityError ∨ CardinalityError = OrderError.
Proof.
  apply (errors_thrown _ (reachable_call _ 0 (Id "a") reachable_literal)
           1 (<["idVal" := "#a"]> literal) (Id "b") CardinalityError);
    reflexivity.
Defined.

(** ** What a call leaves in the new builder *)

(** X8. The builder a fragment call returns differs from its receiver in
    one property only, that of the call's category, which holds what the
    receiver had there followed by the new fragment; every other
    property is the receiver's. *)
Theorem call_writes_one_property (h : heap) this o w r :
  h !! this = Some o → fragment_call w = true →
  fst (call this w h) = Normal r →
  ∃ o', snd (call this w h) !! r = Some o' ∧
    o' !! property w = Some (present (o !! property w) +:+ fragment w) ∧
    ∀ k, k ≠ property w → o' !! k = o !! k.
Proof.
  intros E F. destruct (call this w h) as [c h'] eqn:C. simpl. intros ->.
  apply call_outcome in C as (o1 & E1 & -> & ->).
  rewrite E in E1. injection E1 as <-.
  eexists. split; [apply lookup_new|]. split.
  - rewrite lookup_insert_eq, present_accumulated.
    by rewrite text_fragment by by apply fragment_call_property.
  - intros k N. by rewrite lookup_insert_ne.
Qed.

Lemma call_writes_one_property_witness :
  ∃ o', snd (call 1 (Class "wide") [literal; main_container]) !! 2 = Some o' ∧
    o' !! "classVal" = Some (".container" +:+ ".wide") ∧
    ∀ k, k ≠ "classVal" → o' !! k = main_container !! k.
Proof.
  apply (call_writes_one_property [literal; main_container] 1 main_container
           (Class "wide") 2); reflexivity.
Defined.


